(** * linked-list-concordance.js: a word concordance and a linked list of query words

    A shallow embedding of
    [src/algorithms/data-structures-linked-lists/linked-list-concordance.js]:
    the [Node] and [LinkedList] classes, the indexer [concordance] and the
    query function [searchLines], followed by the properties of the
    specification that concern them.

    Modelling conventions.
    - A JavaScript string is a [string] whose characters are UTF-16 code
      units below 256 (the Latin-1 range); on that range [toLowerCase] and
      the character class of the splitting regular expression are exact.
    - The object returned by [Object.fromEntries] is a finite map from
      property names to arrays of sentence indexes, [gmap string (list nat)].
    - A list node is reachable only through its list and the lists built by
      this file are acyclic, so a chain of nodes is an inductive value; two
      nodes of one chain are the same object exactly when they are equal as
      values (lemma [nodes_from_identity]), which is how [===] on nodes and
      a write through a node reference are rendered.
    - A method that mutates [this] takes the list and returns its final
      state together with the exception raised, if any.
    - The array handed to the [LinkedList] constructor lives in a store of
      arrays, because the constructor writes to it. *)

From Stdlib Require Import Ascii String NArith ZArith.
From stdpp Require Import base option list sorting strings gmap.

Open Scope string_scope.
Open Scope list_scope.

(* ================================================================== *)
(** ** Strings: [String.prototype.toLowerCase] and [split(/[\s.,';]/)] *)
(* ================================================================== *)

(** Code units with a distinct lower-case form: [A-Z], and the Latin-1
    capitals U+00C0..U+00DE without the multiplication sign U+00D7. *)
Definition is_upper (c : ascii) : bool :=
  let n := N_of_ascii c in
  ((65 <=? n) && (n <=? 90) || (192 <=? n) && (n <=? 222) && negb (n =? 215))%N.

Definition lower_char (c : ascii) : ascii :=
  if is_upper c then ascii_of_N (N_of_ascii c + 32) else c.

Fixpoint toLowerCase (s : string) : string :=
  match s with
  | EmptyString => EmptyString
  | String c rest => String (lower_char c) (toLowerCase rest)
  end.

(** The character class [[\s.,';]]: white space (tab, line feed, vertical
    tab, form feed, carriage return, space, no-break space), full stop,
    comma, apostrophe and semicolon. *)
Definition is_delimiter (c : ascii) : bool :=
  let n := N_of_ascii c in
  ((9 <=? n) && (n <=? 13) || (n =? 32) || (n =? 160)
   || (n =? 46) || (n =? 44) || (n =? 39) || (n =? 59))%N.

(** [sentence.split(/[\s.,';]/)]: every delimiter character separates two
    pieces, so [n] delimiters give [n + 1] pieces, empty ones included. *)
Fixpoint split (sentence : string) : list string :=
  match sentence with
  | EmptyString => [EmptyString]
  | String c rest =>
      if is_delimiter c then EmptyString :: split rest
      else match split rest with
           | piece :: pieces => String c piece :: pieces
           | [] => [String c EmptyString]
           end
  end.

(** [[...new Set(array)]]: the elements in order of first occurrence. *)
Definition Set_add (set : list string) (x : string) : list string :=
  if decide (x ∈ set) then set else set ++ [x].

Definition Set_spread (array : list string) : list string :=
  foldl Set_add [] array.

(* ================================================================== *)
(** ** The indexer: [concordance(data)]                                *)
(* ================================================================== *)

(** The body of the [wordsArray.forEach] callback, for one word of the
    sentence at position [index]. *)
Definition add_word (index : nat) (map : gmap string (list nat)) (word : string)
  : gmap string (list nat) :=
  let word := toLowerCase word in
  if decide (word ≠ "") then
    match map !! word with
    | Some indexes => <[word := indexes ++ [index]]> map
    | None => <[word := [index]]> map
    end
  else map.

(** One turn of the [for (let [index, sentence] of data.entries())] loop. *)
Definition add_sentence (map : gmap string (list nat)) (entry : nat * string)
  : gmap string (list nat) :=
  let wordsArray := Set_spread (split entry.2) in
  foldl (add_word entry.1) map wordsArray.

(** [data.entries()]. *)
Definition entries (data : list string) : list (nat * string) :=
  imap pair data.

Definition concordance (data : list string) : gmap string (list nat) :=
  foldl add_sentence ∅ (entries data).

(* ================================================================== *)
(** ** Exceptions                                                      *)
(* ================================================================== *)

Inductive JsError : Type :=
  | Error (message : string)
  | TypeError.

(* ================================================================== *)
(** ** [class Node] and [class LinkedList]                             *)
(* ================================================================== *)

Section LinkedListDefs.
Context {A : Type} `{EqDecision A}.

#[local] Unset Elimination Schemes.
Inductive Node : Type :=
  mkNode { value : A; next : option Node }.
#[local] Set Elimination Schemes.

Record LinkedList : Type := mkList { head : option Node }.

(** Equality of node chains is decidable; it stands for [===]. *)
Fixpoint Node_eqb (x y : Node) : bool :=
  bool_decide (value x = value y)
  && match next x, next y with
     | Some x', Some y' => Node_eqb x' y'
     | None, None => true
     | _, _ => false
     end.

(** The nodes met by [while (node) { ...; node = node.next }]. *)
Fixpoint nodes_from (node : Node) : list Node :=
  node :: match next node with
          | Some n => nodes_from n
          | None => []
          end.

Definition nodes (this : LinkedList) : list Node :=
  match head this with
  | Some node => nodes_from node
  | None => []
  end.

(** [get length()]. *)
Fixpoint length_from (node : Node) (result : nat) : nat :=
  match next node with
  | Some n => length_from n (S result)
  | None => S result
  end.

Definition length (this : LinkedList) : nat :=
  match head this with
  | Some node => length_from node 0
  | None => 0
  end.

(** [insertAtHead(value)]; it cannot fail. *)
Definition insertAtHead (v : A) (this : LinkedList) : LinkedList :=
  {| head := Some (mkNode v (head this)) |}.

(** [findWithPrevious(isMatch)], the loop entered at [node]. *)
Fixpoint findWithPrevious_from
    (isMatch : Node -> nat -> LinkedList -> bool) (this : LinkedList)
    (index : nat) (previous : option Node) (node : Node)
  : option Node * option Node :=
  if isMatch node index this then (Some node, previous)
  else match next node with
       | Some n => findWithPrevious_from isMatch this (S index) (Some node) n
       | None => (None, None)
       end.

Definition findWithPrevious
    (isMatch : Node -> nat -> LinkedList -> bool) (this : LinkedList)
  : option Node * option Node :=
  match head this with
  | Some node => findWithPrevious_from isMatch this 0 None node
  | None => (None, None)
  end.

(** [find(isMatch)]. *)
Definition find (isMatch : Node -> nat -> LinkedList -> bool)
    (this : LinkedList) : option Node :=
  (findWithPrevious isMatch this).1.

(** The write [target.next = new_next], seen from the chain that starts
    at [node]. *)
Fixpoint store_next (target : Node) (new_next : option Node) (node : Node)
  : Node :=
  if Node_eqb node target then mkNode (value node) new_next
  else mkNode (value node)
         match next node with
         | Some n => Some (store_next target new_next n)
         | None => None
         end.

Definition set_next (target : Node) (new_next : option Node)
    (this : LinkedList) : LinkedList :=
  {| head := store_next target new_next <$> head this |}.

(** The default of [insert]'s second parameter:
    [(node, index) => index === this.length - 1]. *)
Definition isLast (this : LinkedList) : Node -> nat -> LinkedList -> bool :=
  fun _ index _ => (Z.of_nat index =? Z.of_nat (length this) - 1)%Z.

(** [insert(value, isMatch)]: the final state of [this] and the exception
    thrown, if any. *)
Definition insert (v : A) (isMatch : Node -> nat -> LinkedList -> bool)
    (this : LinkedList) : LinkedList * option JsError :=
  match head this with
  | Some _ =>
      match find isMatch this with
      | None => (this, Some (Error "No match found."))
      | Some previousNode =>
          (set_next previousNode (Some (mkNode v (next previousNode))) this,
           None)
      end
  | None => (insertAtHead v this, None)
  end.

(** [remove(isMatch)]. Reading [next] of [null] raises a [TypeError]. *)
Definition remove (isMatch : Node -> nat -> LinkedList -> bool)
    (this : LinkedList) : LinkedList * option JsError :=
  let '(matchedNode, previousNode) := findWithPrevious isMatch this in
  let same :=
    match head this, matchedNode with
    | Some h, Some m => Node_eqb h m
    | None, None => true
    | _, _ => false
    end in
  if same then
    match head this with
    | Some h => ({| head := next h |}, None)
    | None => (this, Some TypeError)
    end
  else
    match previousNode, matchedNode with
    | Some p, Some m => (set_next p (next m) this, None)
    | _, _ => (this, Some TypeError)
    end.

(** [asArray()]. *)
Fixpoint asArray_from (node : Node) (values : list A) : list A :=
  match next node with
  | Some n => asArray_from n (values ++ [value node])
  | None => values ++ [value node]
  end.

Definition asArray (this : LinkedList) : list A :=
  match head this with
  | Some node => asArray_from node []
  | None => []
  end.

(** The argument of the constructor: a reference to an array of the
    store, or anything else ([undefined], a non-array). *)
Inductive Argument : Type :=
  | ArrayRef (r : nat)
  | NotAnArray.

(** [new LinkedList(values)]: the store after the call and the new list.
    [values.reverse()] reverses the array in place and returns it. A
    reference the store does not hold is treated like a non-array. *)
Definition constructor (values : Argument) (arrays : gmap nat (list A))
  : gmap nat (list A) * LinkedList :=
  let this := {| head := None |} in
  match values with
  | ArrayRef r =>
      match arrays !! r with
      | Some array =>
          let reversed := reverse array in
          (<[r := reversed]> arrays,
           foldl (fun this v => insertAtHead v this) this reversed)
      | None => (arrays, this)
      end
  | NotAnArray => (arrays, this)
  end.

(** [new LinkedList([...])] on an array literal. *)
Definition LinkedList_of (literal : list A) : LinkedList :=
  (constructor (ArrayRef 0) {[0 := literal]}).2.
End LinkedListDefs.

Arguments Node : clear implicits.
Arguments LinkedList : clear implicits.

(* ================================================================== *)
(** ** The query engine: [searchLines(words, concordance, data)]       *)
(* ================================================================== *)

(** [result.includes(sentence)]; [data[i]] out of range is [undefined],
    here [None]. *)
Definition includes (result : list (option string)) (sentence : option string)
  : bool :=
  bool_decide (sentence ∈ result).

(** The inner [for] loop over the index array of the key. *)
Definition collect (data : list string) (result : list (option string))
    (indexes : list nat) : list (option string) :=
  foldl (fun result sentenceIndex =>
           let sentence := data !! sentenceIndex in
           if includes result sentence then result else result ++ [sentence])
        result indexes.

(** The [while (word)] loop. Besides the result it records, in order, the
    keys passed to [concordance.hasOwnProperty]. *)
Fixpoint searchLines_loop (lowerCasedKey : string)
    (concordance : gmap string (list nat)) (data : list string)
    (word : Node string) (result : list (option string)) (probes : list string)
  : list (option string) * list string :=
  let probes := probes ++ [lowerCasedKey] in
  match concordance !! lowerCasedKey with
  | Some indexes =>
      let result := collect data result indexes in
      match next word with
      | Some w => searchLines_loop lowerCasedKey concordance data w result probes
      | None => (result, probes)
      end
  | None => ([], probes)
  end.

Definition searchLines_run (words : LinkedList string)
    (concordance : gmap string (list nat)) (data : list string)
  : list (option string) * list string :=
  match head words with
  | None => ([], [])
  | Some word =>
      let lowerCasedKey := toLowerCase (value word) in
      searchLines_loop lowerCasedKey concordance data word [] []
  end.

Definition searchLines (words : LinkedList string)
    (concordance : gmap string (list nat)) (data : list string)
  : list (option string) :=
  (searchLines_run words concordance data).1.

Definition lookups (words : LinkedList string)
    (concordance : gmap string (list nat)) (data : list string)
  : list string :=
  (searchLines_run words concordance data).2.

(* ================================================================== *)
(** ** [LinkedList.prototype.toString] on a list of strings            *)
(* ================================================================== *)

(** [array.join(separator)] on an array of strings. *)
Fixpoint join (separator : string) (array : list string) : string :=
  match array with
  | [] => EmptyString
  | x :: rest =>
      match rest with
      | [] => x
      | _ :: _ => String.append x (String.append separator (join separator rest))
      end
  end.

(** [toString()]: the template [`|${this.asArray().join("->")}|`]. *)
Definition toString (this : LinkedList string) : string :=
  String.append "|" (String.append (join "->" (asArray this)) "|").

(** Calls chained on the returned [this]:
    [list.insert(v1).insert(v2)...], each with the default predicate. The
    chain stops at the first exception. *)
Definition insert_all {A : Type} `{EqDecision A} (values : list A)
    (this : LinkedList A) : LinkedList A * option JsError :=
  foldl (fun state v =>
           match state.2 with
           | None => insert v (isLast state.1) state.1
           | Some _ => state
           end)
        (this, None) values.

(* ================================================================== *)
(** ** Predicates used in the statements                               *)
(* ================================================================== *)

(** [occurs_in w sentence]: the non-empty word [w] is the lower-cased form
    of a piece of [sentence]. *)
Definition occurs_in (w sentence : string) : Prop :=
  w ≠ "" ∧ ∃ token, token ∈ split sentence ∧ toLowerCase token = w.

(** No index array of the map is empty. *)
Definition no_empty_array (map : gmap string (list nat)) : Prop :=
  ∀ w, map !! w ≠ Some [].

(** [no_match isMatch this]: no node of the list satisfies the predicate,
    called as [findWithPrevious] calls it. *)
Definition no_match {A : Type} (isMatch : Node A -> nat -> LinkedList A -> bool)
    (this : LinkedList A) : Prop :=
  ∀ i n, nodes this !! i = Some n → isMatch n i this = false.

(** [first_match isMatch this i n]: [n] is the node at position [i], it
    satisfies the predicate and no earlier node does. *)
Definition first_match {A : Type}
    (isMatch : Node A -> nat -> LinkedList A -> bool)
    (this : LinkedList A) (i : nat) (n : Node A) : Prop :=
  nodes this !! i = Some n ∧ isMatch n i this = true
  ∧ ∀ j m, j < i → nodes this !! j = Some m → isMatch m j this = false.

(** A predicate for [find], [insert] and [remove]:
    [(node) => node.value === s]. *)
Definition valueIs (s : string) : Node string → nat → LinkedList string → bool :=
  λ node _ _, bool_decide (value node = s).

(** [ascending_upto k map]: every index array of the map is in ascending
    order, repetitions allowed, and holds no index above [k]. *)
Definition ascending_upto (k : nat) (map : gmap string (list nat)) : Prop :=
  ∀ w indexes, map !! w = Some indexes →
    StronglySorted le indexes ∧ Forall (λ j : nat, (j ≤ k)%nat) indexes.

(** [listed map w i]: the index array of the key [w] holds [i]. *)
Definition listed (map : gmap string (list nat)) (w : string) (i : nat) : Prop :=
  ∃ indexes, map !! w = Some indexes ∧ i ∈ indexes.

(** No character of the string is in the class [[\s.,';]]. *)
Fixpoint delimiter_free (s : string) : bool :=
  match s with
  | EmptyString => true
  | String c rest => negb (is_delimiter c) && delimiter_free rest
  end.

(** Every character of the string is in the class [[\s.,';]]. *)
Fixpoint only_delimiters (s : string) : bool :=
  match s with
  | EmptyString => true
  | String c rest => is_delimiter c && only_delimiters rest
  end.

(** No two different pieces of the sentence have the same lower-case form. *)
Definition case_distinct (sentence : string) : Prop :=
  ∀ t1 t2, t1 ∈ split sentence → t2 ∈ split sentence →
    toLowerCase t1 = toLowerCase t2 → t1 = t2.

(** The string holds no hyphen-minus, the first character of ["->"]. *)
Fixpoint dash_free (s : string) : bool :=
  match s with
  | EmptyString => true
  | String c rest => negb (Ascii.eqb c "-") && dash_free rest
  end.

(** A predicate on the position alone: [(node, index) => index === k]. *)
Definition indexIs {A : Type} (k : nat) : Node A → nat → LinkedList A → bool :=
  λ _ index _, Nat.eqb index k.

(* ================================================================== *)
(** * Properties                                                       *)
(* ================================================================== *)

(** ** The indexer *)

Lemma toLowerCase_empty (s : string) : toLowerCase s = "" ↔ s = "".
Proof. destruct s; simpl; split; congruence. Qed.

Lemma Set_add_elem (set : list string) (x y : string) :
  y ∈ Set_add set x ↔ y ∈ set ∨ y = x.
Proof.
  unfold Set_add. case_decide as Hx.
  - split; [by left | intros [?| ->]; done].
  - rewrite elem_of_app, list_elem_of_singleton. done.
Qed.

Lemma foldl_Set_add_elem (array set : list string) (y : string) :
  y ∈ foldl Set_add set array ↔ y ∈ set ∨ y ∈ array.
Proof.
  revert set. induction array as [|x array IH]; intros set; simpl.
  - rewrite elem_of_nil. tauto.
  - rewrite IH, Set_add_elem, elem_of_cons. tauto.
Qed.

(** Spreading a [Set] keeps exactly the elements of the array. *)
Lemma Set_spread_elem (array : list string) (y : string) :
  y ∈ Set_spread array ↔ y ∈ array.
Proof.
  unfold Set_spread. rewrite foldl_Set_add_elem, elem_of_nil. tauto.
Qed.

Lemma foldl_Set_add_NoDup (array set : list string) :
  NoDup set → NoDup (foldl Set_add set array).
Proof.
  revert set. induction array as [|x array IH]; intros set Hset; simpl; [done|].
  apply IH. unfold Set_add. case_decide as Hx; [done|].
  apply NoDup_app. split_and!; [done| |apply NoDup_singleton].
  intros z Hz ->%list_elem_of_singleton. done.
Qed.

(** ... and each of them once. *)
Lemma Set_spread_NoDup (array : list string) : NoDup (Set_spread array).
Proof. apply foldl_Set_add_NoDup, NoDup_nil_2. Qed.

Lemma add_word_is_Some index (map : gmap string (list nat)) token w :
  is_Some (add_word index map token !! w)
  ↔ is_Some (map !! w) ∨ (w ≠ "" ∧ toLowerCase token = w).
Proof.
  unfold add_word. case_decide as Hne.
  - destruct (map !! toLowerCase token) as [indexes|] eqn:Hk;
      (destruct (decide (toLowerCase token = w)) as [<-|Hw];
       [rewrite lookup_insert_eq, Hk | rewrite lookup_insert_ne by done]);
      split; eauto; intros [?|[? ?]]; try done; eauto.
  - split; [by left|]. intros [?|[Hw <-]]; [done|].
    exfalso. apply Hw. by destruct (decide (toLowerCase token = "")).
Qed.

Lemma foldl_add_word_is_Some index tokens (map : gmap string (list nat)) w :
  is_Some (foldl (add_word index) map tokens !! w)
  ↔ is_Some (map !! w)
    ∨ (w ≠ "" ∧ ∃ token, token ∈ tokens ∧ toLowerCase token = w).
Proof.
  revert map. induction tokens as [|t tokens IH]; intros map; simpl.
  - split; [by left|]. intros [?|(_ & t & Ht%elem_of_nil & _)]; done.
  - rewrite IH, add_word_is_Some. split.
    + intros [[?|[? ?]]|(? & t' & ? & ?)]; eauto.
      * right. split; [done|]. exists t. by rewrite elem_of_cons; eauto.
      * right. split; [done|]. exists t'. by rewrite elem_of_cons; eauto.
    + intros [?|(? & t' & [->|?]%elem_of_cons & ?)]; eauto.
Qed.

Lemma add_sentence_is_Some (map : gmap string (list nat)) entry w :
  is_Some (add_sentence map entry !! w)
  ↔ is_Some (map !! w) ∨ occurs_in w entry.2.
Proof.
  unfold add_sentence, occurs_in. rewrite foldl_add_word_is_Some.
  by setoid_rewrite Set_spread_elem.
Qed.

Lemma foldl_add_sentence_is_Some es (map : gmap string (list nat)) w :
  is_Some (foldl add_sentence map es !! w)
  ↔ is_Some (map !! w) ∨ ∃ entry, entry ∈ es ∧ occurs_in w entry.2.
Proof.
  revert map. induction es as [|e es IH]; intros map; simpl.
  - split; [by left|]. intros [?|(e & He%elem_of_nil & _)]; done.
  - rewrite IH, add_sentence_is_Some. split.
    + intros [[?|?]|(e' & ? & ?)]; eauto.
      * right. exists e. by rewrite elem_of_cons; eauto.
      * right. exists e'. by rewrite elem_of_cons; eauto.
    + intros [?|(e' & [->|?]%elem_of_cons & ?)]; eauto.
Qed.

Lemma elem_of_entries (data : list string) (entry : nat * string) :
  entry ∈ entries data ↔ data !! entry.1 = Some entry.2.
Proof.
  unfold entries. rewrite elem_of_lookup_imap. destruct entry as [i s]. simpl.
  split.
  - by intros (i' & s' & [= -> ->] & ?).
  - intros ?. by exists i, s.
Qed.

Lemma add_word_no_empty index (map : gmap string (list nat)) token :
  no_empty_array map → no_empty_array (add_word index map token).
Proof.
  intros Hmap w. unfold add_word. case_decide as Hne; [|apply Hmap].
  destruct (map !! toLowerCase token) as [indexes|] eqn:Hk;
    (destruct (decide (toLowerCase token = w)) as [<-|Hw];
     [rewrite lookup_insert_eq | rewrite lookup_insert_ne by done; apply Hmap]).
  - intros [= H]. by destruct indexes.
  - done.
Qed.

Lemma foldl_add_word_no_empty index tokens (map : gmap string (list nat)) :
  no_empty_array map → no_empty_array (foldl (add_word index) map tokens).
Proof.
  revert map. induction tokens as [|t tokens IH]; intros map Hmap; simpl;
    [done|]. by apply IH, add_word_no_empty.
Qed.

Lemma foldl_add_sentence_no_empty es (map : gmap string (list nat)) :
  no_empty_array map → no_empty_array (foldl add_sentence map es).
Proof.
  revert map. induction es as [|e es IH]; intros map Hmap; simpl; [done|].
  by apply IH, foldl_add_word_no_empty.
Qed.

(** C5. A word is a key of the concordance exactly when it is non-empty and
    is the lower-cased form of a piece of some sentence, and no key is
    mapped to an empty index array. *)
Theorem concordance_keys (data : list string) (w : string) :
  (is_Some (concordance data !! w)
   ↔ ∃ i sentence, data !! i = Some sentence ∧ occurs_in w sentence)
  ∧ concordance data !! w ≠ Some [].
Proof.
  split.
  - unfold concordance. rewrite foldl_add_sentence_is_Some, lookup_empty.
    split.
    + intros [[? [=]]|([i s] & He%elem_of_entries & Hocc)]. by exists i, s.
    + intros (i & s & Hs & Hocc). right. exists (i, s).
      by rewrite elem_of_entries.
  - apply foldl_add_sentence_no_empty. intros k. by rewrite lookup_empty.
Qed.

(** The loop over [data.entries()], unrolled from the end. *)
Lemma concordance_snoc (data : list string) (sentence : string) :
  concordance (data ++ [sentence])
  = add_sentence (concordance data) (List.length data, sentence).
Proof.
  unfold concordance, entries. rewrite imap_app, foldl_app. simpl.
  by rewrite Nat.add_0_r.
Qed.

Lemma add_word_ascending k (map : gmap string (list nat)) token :
  ascending_upto k map → ascending_upto k (add_word k map token).
Proof.
  intros Hmap w l. unfold add_word. case_decide as Hne; [|apply Hmap].
  destruct (map !! toLowerCase token) as [indexes|] eqn:Hk;
    (destruct (decide (toLowerCase token = w)) as [<-|Hw];
     [rewrite lookup_insert_eq | rewrite lookup_insert_ne by done; apply Hmap]);
    intros [= <-].
  - destruct (Hmap _ _ Hk) as [Hsorted Hle]. split.
    + apply StronglySorted_app_2; [|done|repeat constructor].
      intros j1 j2 Hj1 ->%list_elem_of_singleton.
      by apply (proj1 (Forall_forall _ _) Hle).
    + apply Forall_app. split; [done|]. by repeat constructor.
  - split; by repeat constructor.
Qed.

Lemma add_sentence_ascending k (map : gmap string (list nat)) sentence :
  ascending_upto k map → ascending_upto k (add_sentence map (k, sentence)).
Proof.
  unfold add_sentence. simpl. generalize (Set_spread (split sentence)).
  intros tokens. revert map.
  induction tokens as [|t tokens IH]; intros map Hmap; simpl; [done|].
  by apply IH, add_word_ascending.
Qed.

(** What does hold of the order of every index array: it ascends, possibly
    with repetitions, and its indexes are positions of [data]. *)
Lemma concordance_ascending (data : list string) w indexes :
  concordance data !! w = Some indexes →
  StronglySorted le indexes
  ∧ Forall (λ j : nat, (j < List.length data)%nat) indexes.
Proof.
  revert w indexes. induction data as [|sentence data IH] using rev_ind;
    intros w indexes.
  - unfold concordance. simpl. by rewrite lookup_empty.
  - rewrite concordance_snoc, length_app. simpl. intros Hw.
    assert (ascending_upto (List.length data) (concordance data)) as Hasc.
    { intros w' l' Hl'. destruct (IH _ _ Hl') as [Hs Hlt]. split; [done|].
      eapply Forall_impl; [done|]. simpl. lia. }
    destruct (add_sentence_ascending _ _ sentence Hasc _ _ Hw) as [Hs Hle].
    split; [done|]. eapply Forall_impl; [done|]. simpl. lia.
Qed.

(** C4, at the input [["The the"]]: the two pieces differ as strings, the
    [Set] keeps both, both lower-case to the key ["the"], and the index 0 is
    appended twice. *)
Theorem concordance_case_variants_repeat_index :
  concordance ["The the"] !! "the" = Some [0; 0]
  ∧ ¬ StronglySorted lt [0; 0].
Proof.
  split; [by vm_compute|].
  intros H. apply StronglySorted_inv in H as [_ H].
  apply Forall_inv in H. lia.
Qed.

(** ** The query engine *)

Lemma collect_snoc data result indexes i :
  collect data result (indexes ++ [i])
  = let result' := collect data result indexes in
    if includes result' (data !! i) then result' else result' ++ [data !! i].
Proof. unfold collect. by rewrite foldl_app. Qed.

(** The accumulator only grows. *)
Lemma collect_keeps data indexes (result : list (option string)) x :
  x ∈ result → x ∈ collect data result indexes.
Proof.
  revert result. induction indexes as [|i indexes IH]; intros result Hx;
    simpl; [done|].
  apply IH. destruct (includes result (data !! i)); [done|].
  apply elem_of_app. by left.
Qed.

(** After the inner loop, the sentence of every index is present. *)
Lemma collect_adds data indexes (result : list (option string)) i :
  i ∈ indexes → data !! i ∈ collect data result indexes.
Proof.
  revert result. induction indexes as [|j indexes IH]; intros result Hi;
    [by apply elem_of_nil in Hi|].
  apply elem_of_cons in Hi as [->|Hi]; simpl; [|by apply IH].
  apply collect_keeps. unfold includes. case_bool_decide as Hin; [done|].
  apply elem_of_app. right. by apply list_elem_of_singleton.
Qed.

(** A second pass over the same indexes adds nothing. *)
Lemma collect_present data indexes (result : list (option string)) :
  (∀ i, i ∈ indexes → data !! i ∈ result) →
  collect data result indexes = result.
Proof.
  induction indexes as [|j indexes IH]; intros Hall; simpl; [done|].
  unfold includes. rewrite bool_decide_eq_true_2.
  - apply IH. intros i Hi. apply Hall. by right.
  - apply Hall. by left.
Qed.

Lemma collect_idempotent data indexes (result : list (option string)) :
  collect data (collect data result indexes) indexes
  = collect data result indexes.
Proof. apply collect_present. intros i Hi. by apply collect_adds. Qed.

(** ** Node chains *)

Section NodeChains.
Context {A : Type} `{EqDecision A}.
Implicit Types (node n m : Node A) (this : LinkedList A).

(** Induction along [next]. *)
Lemma Node_chain_ind (P : Node A → Prop) :
  (∀ v, P (mkNode v None)) →
  (∀ v n, P n → P (mkNode v (Some n))) →
  ∀ node, P node.
Proof.
  intros Hlast Hstep. fix go 1.
  intros [v [n|]]; [apply Hstep, go | apply Hlast].
Qed.

Lemma Node_eqb_eq n m : Node_eqb n m = true ↔ n = m.
Proof.
  revert m. induction n as [v|v n IH] using Node_chain_ind;
    intros [w [m|]]; simpl;
    rewrite andb_true_iff, bool_decide_eq_true, ?IH;
    (split; [intros [-> ?]; congruence | intros [=]; by subst]).
Qed.

Lemma Node_eqb_refl n : Node_eqb n n = true.
Proof. by apply Node_eqb_eq. Qed.

Lemma nodes_from_length_pos n : 0 < List.length (nodes_from n).
Proof. destruct n; simpl; lia. Qed.

(** The chain that starts at the [i]-th node is the rest of the chain. *)
Lemma nodes_from_lookup n i m :
  nodes_from n !! i = Some m → nodes_from m = drop i (nodes_from n).
Proof.
  revert i. induction n as [v|v n IH] using Node_chain_ind; intros i Hi.
  - destruct i as [|i]; simpl in Hi; [by injection Hi as <-|].
    by rewrite lookup_nil in Hi.
  - destruct i as [|i]; simpl in Hi; [by injection Hi as <-|].
    by apply IH in Hi.
Qed.

(** Two positions of a chain never hold equal nodes: equality of values
    is identity of objects. *)
Lemma nodes_from_identity n i j m :
  nodes_from n !! i = Some m → nodes_from n !! j = Some m → i = j.
Proof.
  intros Hi Hj.
  pose proof (lookup_lt_Some _ _ _ Hi) as Hli.
  pose proof (lookup_lt_Some _ _ _ Hj) as Hlj.
  apply nodes_from_lookup in Hi. apply nodes_from_lookup in Hj.
  assert (List.length (drop i (nodes_from n))
          = List.length (drop j (nodes_from n))) as Hlen by congruence.
  rewrite !length_drop in Hlen. lia.
Qed.

Lemma nodes_from_next n m :
  next n = Some m → nodes_from n = n :: nodes_from m.
Proof. destruct n as [v nx]; simpl. by intros ->. Qed.

Lemma nodes_from_last n : next n = None → nodes_from n = [n].
Proof. destruct n as [v nx]; simpl. by intros ->. Qed.

(** [length] counts the nodes. *)
Lemma length_from_nodes n result :
  length_from n result = result + List.length (nodes_from n).
Proof.
  revert result. induction n as [v|v n IH] using Node_chain_ind;
    intros result; simpl; [lia|]. rewrite IH. simpl. lia.
Qed.

Lemma length_nodes this : length this = List.length (nodes this).
Proof.
  unfold length, nodes. destruct (head this); [|done].
  by rewrite length_from_nodes.
Qed.

(** [asArray] lists the values of the nodes. *)
Lemma asArray_from_nodes n values :
  asArray_from n values = values ++ (value <$> nodes_from n).
Proof.
  revert values. induction n as [v|v n IH] using Node_chain_ind;
    intros values; simpl; [done|]. rewrite IH. by rewrite <- app_assoc.
Qed.

Lemma asArray_nodes this : asArray this = value <$> nodes this.
Proof.
  unfold asArray, nodes. destruct (head this); [|done].
  by rewrite asArray_from_nodes.
Qed.

Lemma asArray_insertAtHead v this :
  asArray (insertAtHead v this) = v :: asArray this.
Proof.
  rewrite !asArray_nodes. unfold nodes, insertAtHead. simpl.
  by destruct (head this).
Qed.

Lemma asArray_foldl_insertAtHead (l : list A) this :
  asArray (foldl (λ this v, insertAtHead v this) this l)
  = reverse l ++ asArray this.
Proof.
  revert this. induction l as [|v l IH]; intros this; simpl; [done|].
  rewrite IH, asArray_insertAtHead, reverse_cons, <- app_assoc. done.
Qed.
End NodeChains.

(** ** The linked list *)

Section LinkedListProps.
Context {A : Type} `{EqDecision A}.
Implicit Types (node n m : Node A) (this : LinkedList A).
Implicit Types (isMatch : Node A → nat → LinkedList A → bool).

(** What the loop of [findWithPrevious] returns when entered at [n] with
    the counter at [k]: nothing when no node from [n] on matches, else the
    first matching node and the node before it. *)
Lemma findWithPrevious_from_spec isMatch this k previous n :
  (findWithPrevious_from isMatch this k previous n = (None, None)
   ∧ ∀ j m, nodes_from n !! j = Some m → isMatch m (k + j) this = false)
  ∨ (∃ i x,
       nodes_from n !! i = Some x ∧ isMatch x (k + i) this = true
       ∧ (∀ j m, j < i → nodes_from n !! j = Some m →
                 isMatch m (k + j) this = false)
       ∧ findWithPrevious_from isMatch this k previous n
         = (Some x, match i with
                    | 0 => previous
                    | S i' => nodes_from n !! i'
                    end)).
Proof.
  revert k previous.
  induction n as [v|v n IH] using Node_chain_ind; intros k previous; simpl.
  - destruct (isMatch (mkNode v None) k this) eqn:Hm.
    + right. exists 0, (mkNode v None). rewrite Nat.add_0_r.
      split_and!; [done..| |done]. intros j m Hj. lia.
    + left. split; [done|]. intros [|j] m Hj; simpl in Hj; [|done].
      injection Hj as <-. by rewrite Nat.add_0_r.
  - destruct (isMatch (mkNode v (Some n)) k this) eqn:Hm.
    + right. exists 0, (mkNode v (Some n)). rewrite Nat.add_0_r.
      split_and!; [done..| |done]. intros j m Hj. lia.
    + destruct (IH (S k) (Some (mkNode v (Some n))))
        as [[Hr Hno]|(i & x & Hx & Hmx & Hbefore & Hr)].
      * left. split; [done|]. intros [|j] m Hj; simpl in Hj.
        -- injection Hj as <-. by rewrite Nat.add_0_r.
        -- rewrite Nat.add_succ_r. by apply Hno.
      * right. exists (S i), x. rewrite Nat.add_succ_r.
        split_and!; [done..| |].
        -- intros [|j] m Hlt Hj; simpl in Hj.
           ++ injection Hj as <-. by rewrite Nat.add_0_r.
           ++ rewrite Nat.add_succ_r. apply Hbefore; [lia|done].
        -- rewrite Hr. by destruct i.
Qed.

Lemma findWithPrevious_no_match isMatch this :
  no_match isMatch this → findWithPrevious isMatch this = (None, None).
Proof.
  unfold no_match, findWithPrevious, nodes. intros Hno.
  destruct (head this) as [h|]; [|done].
  destruct (findWithPrevious_from_spec isMatch this 0 None h)
    as [[Hr _]|(i & x & Hx & Hmx & _)]; [done|].
  simpl in Hmx. by rewrite (Hno i x) in Hmx.
Qed.

Lemma findWithPrevious_first_match isMatch this i n :
  first_match isMatch this i n →
  findWithPrevious isMatch this
  = (Some n, match i with 0 => None | S i' => nodes this !! i' end).
Proof.
  unfold first_match, findWithPrevious, nodes. intros (Hn & Hm & Hbefore).
  destruct (head this) as [h|]; [|by rewrite lookup_nil in Hn].
  destruct (findWithPrevious_from_spec isMatch this 0 None h)
    as [[_ Hno]|(i' & x & Hx & Hmx & Hbefore' & Hr)].
  - simpl in Hno. by rewrite (Hno i n) in Hm.
  - simpl in Hmx, Hbefore'.
    destruct (Nat.lt_trichotomy i i') as [Hlt|[->|Hlt]].
    + by rewrite (Hbefore' i n) in Hm.
    + rewrite Hr. congruence.
    + by rewrite (Hbefore i' x) in Hmx.
Qed.

(** Either no node matches or some node is the first to match. *)
Lemma match_cases isMatch this :
  no_match isMatch this ∨ ∃ i n, first_match isMatch this i n.
Proof.
  unfold no_match, first_match, nodes.
  destruct (head this) as [h|]; [|left; intros i n; by rewrite lookup_nil].
  destruct (findWithPrevious_from_spec isMatch this 0 None h)
    as [[_ Hno]|(i & x & Hx & Hmx & Hbefore & _)]; [by left|].
  right. by exists i, x.
Qed.

Lemma nodes_next n : nodes (mkList (next n)) = drop 1 (nodes_from n).
Proof. by destruct n as [v [m|]]. Qed.

(** The write [target.next = new_next] on the node at position [i] keeps
    the first [i + 1] nodes' values and continues with the chain of
    [new_next]. *)
Lemma store_next_values target new_next n i :
  nodes_from n !! i = Some target →
  asArray (mkList (Some (store_next target new_next n)))
  = take (S i) (asArray (mkList (Some n))) ++ asArray (mkList new_next).
Proof.
  rewrite !asArray_nodes. unfold nodes at 1 2. simpl head.
  revert i. induction n as [v|v n IH] using Node_chain_ind; intros i Hi.
  - destruct i as [|i]; simpl in Hi; [|done]. injection Hi as <-.
    simpl. rewrite bool_decide_eq_true_2 by done. simpl. by destruct new_next.
  - destruct i as [|i]; simpl in Hi.
    + injection Hi as <-. cbn [store_next]. rewrite Node_eqb_refl.
      simpl. by destruct new_next.
    + cbn [store_next].
      destruct (Node_eqb (mkNode v (Some n)) target) eqn:Heq.
      * apply Node_eqb_eq in Heq. subst target.
        assert (0 = S i) by
          (by apply (nodes_from_identity (mkNode v (Some n)) 0 (S i)
                       (mkNode v (Some n)))).
        lia.
      * simpl. f_equal. by apply IH.
Qed.

Lemma insert_first_match (v : A) isMatch this i n :
  first_match isMatch this i n →
  (insert v isMatch this).2 = None
  ∧ asArray (insert v isMatch this).1
    = take (S i) (asArray this) ++ v :: drop (S i) (asArray this).
Proof.
  intros Hf. pose proof Hf as (Hn & _).
  unfold insert, find. rewrite (findWithPrevious_first_match _ _ i n Hf).
  unfold nodes in Hn. destruct this as [[h|]]; simpl in *;
    [|by rewrite lookup_nil in Hn].
  split; [done|]. unfold set_next. simpl.
  rewrite (store_next_values _ _ _ i Hn). f_equal.
  rewrite !asArray_nodes. unfold nodes at 2. simpl head.
  change (nodes {| head := Some (mkNode v (next n)) |})
    with (mkNode v (next n) :: nodes (mkList (next n))).
  rewrite (nodes_next n), (nodes_from_lookup _ _ _ Hn), drop_drop.
  rewrite fmap_cons, fmap_drop. simpl. by rewrite Nat.add_1_r.
Qed.

Lemma insert_no_match (v : A) isMatch this :
  head this ≠ None → no_match isMatch this →
  insert v isMatch this = (this, Some (Error "No match found.")).
Proof.
  intros Hh Hno. unfold insert, find.
  rewrite (findWithPrevious_no_match _ _ Hno).
  by destruct (head this).
Qed.

Lemma insert_empty (v : A) isMatch this :
  head this = None →
  insert v isMatch this = (insertAtHead v this, None)
  ∧ asArray (insert v isMatch this).1 = [v].
Proof.
  intros Hh. unfold insert. rewrite Hh. split; [done|]. simpl.
  rewrite asArray_insertAtHead, asArray_nodes. unfold nodes.
  by rewrite Hh.
Qed.

(** C7. [insert] throws ['No match found.'], and nothing else, exactly
    when the list is non-empty and no node matches, and then the list is
    as before; on an empty list the value becomes the head; otherwise the
    value is placed right after the first matching node. *)
Theorem insert_spec (v : A) isMatch this :
  ((insert v isMatch this).2 = Some (Error "No match found.")
   ↔ head this ≠ None ∧ no_match isMatch this)
  ∧ ((insert v isMatch this).2 = None
     ∨ (insert v isMatch this).2 = Some (Error "No match found."))
  ∧ ((insert v isMatch this).2 ≠ None → (insert v isMatch this).1 = this)
  ∧ (head this = None →
     insert v isMatch this = (insertAtHead v this, None)
     ∧ asArray (insert v isMatch this).1 = [v])
  ∧ (∀ i n, first_match isMatch this i n →
       (insert v isMatch this).2 = None
       ∧ asArray (insert v isMatch this).1
         = take (S i) (asArray this) ++ v :: drop (S i) (asArray this)).
Proof.
  pose proof (insert_first_match v isMatch this) as Hfirst.
  pose proof (insert_no_match v isMatch this) as Hnone.
  split_and!.
  - split; [|by intros [Hh Hno]; rewrite Hnone].
    intros Hthrow. destruct (head this) as [h|] eqn:Hh.
    + split; [done|].
      destruct (match_cases isMatch this) as [?|(i & n & Hf)]; [done|].
      apply Hfirst in Hf as [Hok _]. congruence.
    + unfold insert in Hthrow. by rewrite Hh in Hthrow.
  - destruct (head this) as [h|] eqn:Hh.
    + destruct (match_cases isMatch this) as [Hno|(i & n & Hf)].
      * right. by rewrite Hnone.
      * left. by apply Hfirst in Hf as [Hok _].
    + left. unfold insert. by rewrite Hh.
  - intros Hthrow. destruct (head this) as [h|] eqn:Hh.
    + destruct (match_cases isMatch this) as [Hno|(i & n & Hf)].
      * by rewrite Hnone.
      * by apply Hfirst in Hf as [Hok _].
    + unfold insert in Hthrow. by rewrite Hh in Hthrow.
  - apply insert_empty.
  - done.
Qed.

(** With the default predicate, [insert] appends at the end. *)
Lemma insert_default (v : A) this :
  (insert v (isLast this) this).2 = None
  ∧ asArray (insert v (isLast this) this).1 = asArray this ++ [v].
Proof.
  destruct (head this) as [h|] eqn:Hh.
  - pose proof (nodes_from_length_pos h) as Hpos.
    assert (nodes this = nodes_from h) as Hnodes
      by (unfold nodes; by rewrite Hh).
    destruct (lookup_lt_is_Some_2 (nodes this) (List.length (nodes this) - 1))
      as [n Hn]; [rewrite Hnodes; lia|].
    assert (first_match (isLast this) this
              (List.length (nodes this) - 1) n) as Hf.
    { split_and!; [done| |]; unfold isLast; rewrite length_nodes, Hnodes.
      - apply Z.eqb_eq. lia.
      - intros j m Hj _. apply Z.eqb_neq. lia. }
    destruct (insert_first_match v _ _ _ _ Hf) as [Hok Harr].
    split; [done|].
    rewrite Harr, asArray_nodes, Hnodes.
    replace (S (List.length (nodes_from h) - 1))
      with (List.length (value <$> nodes_from h))
      by (rewrite length_fmap; lia).
    by rewrite firstn_all, drop_all.
  - destruct (insert_empty v (isLast this) this Hh) as [-> ->].
    split; [done|]. rewrite asArray_nodes. unfold nodes. by rewrite Hh.
Qed.

(** When some node matches, [remove] unlinks the first one that does. *)
Lemma remove_first_match isMatch this i n :
  first_match isMatch this i n →
  (remove isMatch this).2 = None
  ∧ asArray (remove isMatch this).1 = delete i (asArray this).
Proof.
  intros Hf. pose proof Hf as (Hn & _).
  unfold remove. rewrite (findWithPrevious_first_match _ _ i n Hf).
  unfold nodes in Hn. destruct this as [[h|]]; simpl in *;
    [|by rewrite lookup_nil in Hn].
  destruct (Node_eqb h n) eqn:Heq.
  - apply Node_eqb_eq in Heq. subst n.
    assert (0 = i) as <- by
      (by apply (nodes_from_identity h 0 i h); [destruct h|]).
    split; [done|]. simpl. rewrite !asArray_nodes, nodes_next.
    unfold nodes. simpl. destruct h as [v nx]. simpl.
    by rewrite drop_0.
  - destruct i as [|i].
    { assert (Some h = Some n) as [= ->] by (by destruct h).
      by rewrite Node_eqb_refl in Heq. }
    unfold nodes. simpl.
    destruct (nodes_from h !! i) as [p|] eqn:Hp.
    + split; [done|]. unfold set_next. simpl.
      rewrite (store_next_values _ _ _ i Hp), delete_take_drop.
      f_equal. rewrite !asArray_nodes. unfold nodes at 2. simpl head.
      rewrite nodes_next, (nodes_from_lookup _ _ _ Hn), drop_drop.
      rewrite fmap_drop. f_equal. lia.
    + apply lookup_lt_Some in Hn. apply lookup_ge_None in Hp. lia.
Qed.

(** C9. [remove] raises a [TypeError] exactly when no node satisfies the
    predicate, the empty list included; the list is then as before the
    call, but the call does not return it. *)
Theorem remove_TypeError isMatch this :
  (no_match isMatch this → remove isMatch this = (this, Some TypeError))
  ∧ ((remove isMatch this).2 = Some TypeError → no_match isMatch this).
Proof.
  split.
  - intros Hno. unfold remove. rewrite (findWithPrevious_no_match _ _ Hno).
    by destruct (head this).
  - intros Hthrow.
    destruct (match_cases isMatch this) as [?|(i & n & Hf)]; [done|].
    apply remove_first_match in Hf as [Hok _]. congruence.
Qed.

Lemma constructor_array (arrays : gmap nat (list A)) r (array : list A) :
  arrays !! r = Some array →
  (constructor (ArrayRef r) arrays).1 = <[r := reverse array]> arrays
  ∧ asArray (constructor (ArrayRef r) arrays).2 = array.
Proof.
  intros Hr. unfold constructor. rewrite Hr. simpl. split; [done|].
  rewrite asArray_foldl_insertAtHead, reverse_involutive.
  apply app_nil_r.
Qed.

Lemma asArray_LinkedList_of (literal : list A) :
  asArray (LinkedList_of literal) = literal.
Proof.
  unfold LinkedList_of.
  by apply (constructor_array {[0 := literal]} 0), lookup_singleton_eq.
Qed.

(** C8. The list constructed from an array of the store converts back to
    the sequence the array held, in the same order. *)
Theorem constructor_roundtrip (arrays : gmap nat (list A)) r (array : list A) :
  arrays !! r = Some array →
  asArray (constructor (ArrayRef r) arrays).2 = array.
Proof. intros Hr. by apply constructor_array. Qed.

(** C10. The constructor leaves the caller's array reversed in the store
    and touches no other array, while the nodes of the list it builds,
    front to back, carry the values in the order the array had before the
    call. *)
Theorem constructor_reverses_argument
    (arrays : gmap nat (list A)) r (array : list A) :
  arrays !! r = Some array →
  (constructor (ArrayRef r) arrays).1 !! r = Some (reverse array)
  ∧ (∀ r', r' ≠ r → (constructor (ArrayRef r) arrays).1 !! r' = arrays !! r')
  ∧ value <$> nodes (constructor (ArrayRef r) arrays).2 = array.
Proof.
  intros Hr. rewrite <- asArray_nodes.
  destruct (constructor_array arrays r array Hr) as [-> ->]. split_and!.
  - apply lookup_insert_eq.
  - intros r' Hne. by apply lookup_insert_ne.
  - done.
Qed.
End LinkedListProps.

(** ** The query engine, continued *)

(** [lowerCasedKey] is computed before the [while] loop and never again, so
    every turn of the loop probes the concordance for the same key: the
    loop makes one pass of the inner loop per node, all over the index
    array of that one key. *)
Lemma searchLines_loop_spec key (c : gmap string (list nat)) data word
    result probes :
  searchLines_loop key c data word result probes
  = match c !! key with
    | Some indexes =>
        (collect data result indexes,
         probes ++ replicate (List.length (nodes_from word)) key)
    | None => ([], probes ++ [key])
    end.
Proof.
  revert result probes.
  induction word as [v|v word IH] using Node_chain_ind; intros result probes;
    cbn [searchLines_loop next nodes_from List.length replicate].
  - by destruct (c !! key).
  - destruct (c !! key) as [indexes|] eqn:Hkey; [|done].
    rewrite IH, collect_idempotent. f_equal. by rewrite <- app_assoc.
Qed.

(** The whole query is decided by its first word. *)
Lemma searchLines_first_word words (c : gmap string (list nat)) data h :
  head words = Some h →
  searchLines words c data
  = match c !! toLowerCase (value h) with
    | Some indexes => collect data [] indexes
    | None => []
    end
  ∧ ∀ key, key ∈ lookups words c data → key = toLowerCase (value h).
Proof.
  intros Hh. unfold searchLines, lookups, searchLines_run. rewrite Hh.
  rewrite searchLines_loop_spec.
  destruct (c !! toLowerCase (value h)); simpl; (split; [done|]); intros key.
  - by intros [-> _]%elem_of_replicate.
  - by intros ->%list_elem_of_singleton.
Qed.

(** C6. On an empty list of query words [searchLines] returns the empty
    array and asks the concordance nothing. *)
Theorem searchLines_no_words words (c : gmap string (list nat)) data :
  asArray words = [] →
  searchLines words c data = [] ∧ lookups words c data = [].
Proof.
  rewrite asArray_nodes. unfold nodes, searchLines, lookups, searchLines_run.
  destruct (head words) as [[v nx]|]; [|done]. simpl. done.
Qed.

(** C1, at the input of the claim: the second word ["the"] is never looked
    up, the key ["cat"] is probed twice, and ["the dog ran"] is missing from
    the result. *)
Theorem searchLines_cat_the :
  let sentences := ["the cat sat"; "the dog ran"; "cats and dogs"] in
  let words := LinkedList_of ["cat"; "the"] in
  searchLines words (concordance sentences) sentences = [Some "the cat sat"]
  ∧ lookups words (concordance sentences) sentences = ["cat"; "cat"]
  ∧ searchLines words (concordance sentences) sentences
    ≠ [Some "the cat sat"; Some "the dog ran"].
Proof. by vm_compute. Qed.

(** C2, at the input of the specification: the second word ["zzz"] is not a
    key of the concordance, yet the result is not empty. *)
Theorem searchLines_cat_zzz :
  let sentences := ["cat sat"; "dog ran"] in
  let words := LinkedList_of ["cat"; "zzz"] in
  concordance sentences !! toLowerCase "zzz" = None
  ∧ searchLines words (concordance sentences) sentences = [Some "cat sat"].
Proof. by vm_compute. Qed.

(** C3, at a query whose second word is no key: the result is not empty
    although a word of the query is absent from the concordance. *)
Theorem searchLines_nonempty_with_absent_word :
  let sentences := ["All human beings are born free"; "No one is absent"] in
  let words := LinkedList_of ["HUMAN"; "slavery"] in
  searchLines words (concordance sentences) sentences ≠ []
  ∧ "slavery" ∈ asArray words
  ∧ concordance sentences !! toLowerCase "slavery" = None.
Proof.
  split_and!; [by vm_compute| |by vm_compute].
  rewrite asArray_LinkedList_of. apply list_elem_of_In. simpl. tauto.
Qed.

(** ** The examples of the specification, run on the model *)

Example concordance_case_insensitive :
  concordance ["Free"; "free"] = {[ "free" := [0; 1] ]}.
Proof. by vm_compute. Qed.

Example concordance_dedup_in_sentence :
  concordance ["the the cat"] = <["the" := [0]]> {[ "cat" := [0] ]}.
Proof. by vm_compute. Qed.

Example concordance_delimiters :
  map_to_list (concordance ["a,b;c d"])
  ≡ₚ [("a", [0]); ("b", [0]); ("c", [0]); ("d", [0])].
Proof. vm_compute. by apply (bool_decide_unpack _). Qed.

Example split_keeps_empty_pieces :
  split "No one; slavery." = ["No"; "one"; ""; "slavery"; ""].
Proof. reflexivity. Qed.

(** ** Instances *)

Lemma concordance_keys_witness :
  is_Some (concordance ["Born Free"; "free men"] !! "free")
  ∧ concordance ["Born Free"; "free men"] !! "free" ≠ Some [].
Proof.
  split; [|apply (concordance_keys ["Born Free"; "free men"] "free")].
  apply (concordance_keys ["Born Free"; "free men"] "free").
  exists 0, "Born Free". split; [reflexivity|].
  split; [discriminate|]. exists "Free". split; [|reflexivity].
  apply list_elem_of_In. simpl. tauto.
Defined.

Lemma searchLines_no_words_witness :
  searchLines (LinkedList_of []) (concordance ["cat sat"]) ["cat sat"] = []
  ∧ lookups (LinkedList_of []) (concordance ["cat sat"]) ["cat sat"] = [].
Proof.
  apply (searchLines_no_words (LinkedList_of []) (concordance ["cat sat"])
           ["cat sat"]).
  reflexivity.
Defined.

Lemma insert_spec_witness :
  let abc := LinkedList_of ["a"; "b"; "c"] in
  (insert "x" (valueIs "z") abc).2 = Some (Error "No match found.")
  ∧ (insert "x" (valueIs "z") abc).1 = abc
  ∧ asArray (insert "x" (valueIs "b") abc).1 = ["a"; "b"; "x"; "c"]
  ∧ asArray (insert "x" (valueIs "b") (mkList None)).1 = ["x"].
Proof.
  intros abc.
  destruct (insert_spec "x" (valueIs "z") abc) as (Hthrow & _ & Hsame & _).
  destruct (insert_spec "x" (valueIs "b") abc) as (_ & _ & _ & _ & Hafter).
  destruct (insert_spec "x" (valueIs "b") (mkList None))
    as (_ & _ & _ & Hempty & _).
  assert ((insert "x" (valueIs "z") abc).2 = Some (Error "No match found."))
    as Hz.
  { apply Hthrow. split; [discriminate|].
    intros [|[|[|i]]] n Hn; vm_compute in Hn; try discriminate;
      injection Hn as <-; reflexivity. }
  split_and!.
  - exact Hz.
  - apply Hsame. rewrite Hz. discriminate.
  - apply (Hafter 1 (mkNode "b" (Some (mkNode "c" None)))).
    split_and!; [reflexivity..|].
    intros [|j] m Hlt Hm; [|lia].
    vm_compute in Hm. injection Hm as <-. reflexivity.
  - apply Hempty. reflexivity.
Defined.

Lemma remove_TypeError_witness :
  remove (valueIs "z") (LinkedList_of ["a"; "b"])
  = (LinkedList_of ["a"; "b"], Some TypeError)
  ∧ remove (valueIs "z") (mkList None) = (mkList None, Some TypeError).
Proof.
  split.
  - apply (remove_TypeError (valueIs "z") (LinkedList_of ["a"; "b"])).
    intros [|[|i]] n Hn; vm_compute in Hn; try discriminate;
      injection Hn as <-; reflexivity.
  - apply (remove_TypeError (valueIs "z") (mkList None)).
    intros i n Hn. vm_compute in Hn. discriminate.
Defined.

Lemma constructor_roundtrip_witness :
  asArray (constructor (ArrayRef 7) {[7 := ["a"; "b"; "c"]]}).2
  = ["a"; "b"; "c"].
Proof.
  apply (constructor_roundtrip {[7 := ["a"; "b"; "c"]]} 7 ["a"; "b"; "c"]).
  reflexivity.
Defined.

Lemma constructor_reverses_argument_witness :
  let arrays : gmap nat (list string) :=
    <[3 := ["x"; "y"]]> {[7 := ["a"; "b"; "c"]]} in
  (constructor (ArrayRef 7) arrays).1 !! 7 = Some ["c"; "b"; "a"]
  ∧ (constructor (ArrayRef 7) arrays).1 !! 3 = Some ["x"; "y"]
  ∧ value <$> nodes (constructor (ArrayRef 7) arrays).2 = ["a"; "b"; "c"].
Proof.
  intros arrays.
  destruct (constructor_reverses_argument arrays 7 ["a"; "b"; "c"] eq_refl)
    as (Hrev & Hother & Hlist).
  split_and!; [exact Hrev| |exact Hlist].
  apply (Hother 3). lia.
Defined.

(* ================================================================== *)
(** * Further properties                                               *)
(* ================================================================== *)

(** ** Characters *)

Lemma lower_char_idempotent (c : ascii) :
  lower_char (lower_char c) = lower_char c.
Proof. destruct c as [[] [] [] [] [] [] [] []]; reflexivity. Qed.

Lemma lower_char_delimiter (c : ascii) :
  is_delimiter (lower_char c) = is_delimiter c.
Proof. destruct c as [[] [] [] [] [] [] [] []]; reflexivity. Qed.

Lemma toLowerCase_idempotent (s : string) :
  toLowerCase (toLowerCase s) = toLowerCase s.
Proof.
  induction s as [|c s IH]; simpl; [done|].
  by rewrite lower_char_idempotent, IH.
Qed.

Lemma delimiter_free_toLowerCase (s : string) :
  delimiter_free (toLowerCase s) = delimiter_free s.
Proof.
  induction s as [|c s IH]; simpl; [done|].
  by rewrite lower_char_delimiter, IH.
Qed.

Lemma split_not_nil (s : string) : split s ≠ [].
Proof.
  induction s as [|c s IH]; simpl; [done|].
  destruct (is_delimiter c); [done|]. by destruct (split s).
Qed.

(** No piece holds a delimiter. *)
Lemma split_delimiter_free (s t : string) :
  t ∈ split s → delimiter_free t = true.
Proof.
  revert t. induction s as [|c s IH]; intros t; simpl.
  - by intros ->%list_elem_of_singleton.
  - destruct (is_delimiter c) eqn:Hc.
    + intros [->|Ht]%elem_of_cons; [done|by apply IH].
    + destruct (split s) as [|piece pieces] eqn:Hs;
        [by apply split_not_nil in Hs|].
      intros [->|Ht]%elem_of_cons; simpl.
      * rewrite Hc. simpl. apply IH. by left.
      * apply IH. by right.
Qed.


(** A sentence of delimiters only splits into empty pieces. *)
Lemma split_only_delimiters (s t : string) :
  only_delimiters s = true → t ∈ split s → t = "".
Proof.
  revert t. induction s as [|c s IH]; intros t; simpl.
  - by intros _ ->%list_elem_of_singleton.
  - intros [Hc Hs]%andb_true_iff. rewrite Hc.
    intros [->|Ht]%elem_of_cons; [done|by apply IH].
Qed.


(** ** The indexer: which indexes a key lists *)

Lemma add_word_listed k (map : gmap string (list nat)) token w i :
  listed (add_word k map token) w i
  ↔ listed map w i ∨ (i = k ∧ w ≠ "" ∧ toLowerCase token = w).
Proof.
  unfold listed, add_word. case_decide as Hne.
  - destruct (map !! toLowerCase token) as [indexes|] eqn:Hk;
      (destruct (decide (toLowerCase token = w)) as [<-|Hw];
       [rewrite lookup_insert_eq, Hk | rewrite lookup_insert_ne by done]).
    + split.
      * intros (l & [= <-] & [Hi| ->%list_elem_of_singleton]%elem_of_app);
          eauto.
      * intros [(l & [= <-] & Hi)|(-> & _ & _)]; eexists; split; try done;
          apply elem_of_app; [by left|right; by apply list_elem_of_singleton].
    + split; [by left|]. by intros [?|(_ & _ & ?)].
    + split.
      * intros (l & [= <-] & ->%list_elem_of_singleton). eauto.
      * intros [(l & [=] & _)|(-> & _ & _)]. eexists; split; [done|].
        by apply list_elem_of_singleton.
    + split; [by left|]. by intros [?|(_ & _ & ?)].
  - split; [by left|]. intros [?|(_ & Hw & <-)]; [done|].
    exfalso. apply Hw. by destruct (decide (toLowerCase token = "")).
Qed.

Lemma foldl_add_word_listed k tokens (map : gmap string (list nat)) w i :
  listed (foldl (add_word k) map tokens) w i
  ↔ listed map w i
    ∨ (i = k ∧ w ≠ "" ∧ ∃ token, token ∈ tokens ∧ toLowerCase token = w).
Proof.
  revert map. induction tokens as [|t tokens IH]; intros map; simpl.
  - split; [by left|]. intros [?|(_ & _ & t & Ht%elem_of_nil & _)]; done.
  - rewrite IH, add_word_listed. split.
    + intros [[?|(? & ? & ?)]|(? & ? & t' & ? & ?)]; eauto.
      * right. split_and!; [done..|]. exists t. by rewrite elem_of_cons; eauto.
      * right. split_and!; [done..|]. exists t'. by rewrite elem_of_cons; eauto.
    + intros [?|(? & ? & t' & [->|?]%elem_of_cons & ?)]; eauto 10.
Qed.

Lemma add_sentence_listed (map : gmap string (list nat)) k sentence w i :
  listed (add_sentence map (k, sentence)) w i
  ↔ listed map w i ∨ (i = k ∧ occurs_in w sentence).
Proof.
  unfold add_sentence, occurs_in. simpl. rewrite foldl_add_word_listed.
  setoid_rewrite Set_spread_elem. tauto.
Qed.

Lemma concordance_listed (data : list string) w i :
  listed (concordance data) w i
  ↔ ∃ sentence, data !! i = Some sentence ∧ occurs_in w sentence.
Proof.
  induction data as [|s data IH] using rev_ind.
  - unfold listed, concordance. simpl. split.
    + intros (l & Hl & _). by rewrite lookup_empty in Hl.
    + intros (s & Hs & _). by rewrite lookup_nil in Hs.
  - rewrite concordance_snoc, add_sentence_listed, IH. split.
    + intros [(s' & Hs' & Hocc)|[-> Hocc]].
      * exists s'. split; [|done]. apply lookup_app_l_Some. done.
      * exists s. split; [|done]. by rewrite list_lookup_middle.
    + intros (s' & [Hs'|[-> ->]]%lookup_snoc_Some & Hocc); eauto.
      left. exists s'. by destruct Hs'.
Qed.

(** X1. The index array of a word holds the position [i] exactly when the
    sentence at position [i] has a non-empty piece whose lower-case form is
    the word. *)
Theorem concordance_lists_exactly (data : list string) (w : string) (i : nat) :
  (∃ indexes, concordance data !! w = Some indexes ∧ i ∈ indexes)
  ↔ ∃ sentence, data !! i = Some sentence ∧ occurs_in w sentence.
Proof. apply concordance_listed. Qed.

(** X2. Every index array of the concordance is in ascending order,
    repetitions allowed, and each of its indexes is a position of [data],
    so that [data[index]] is a sentence. *)
Theorem concordance_indexes_in_range (data : list string) w indexes :
  concordance data !! w = Some indexes →
  StronglySorted le indexes
  ∧ ∀ i, i ∈ indexes → is_Some (data !! i).
Proof.
  intros Hw. destruct (concordance_ascending data w indexes Hw) as [Hs Hlt].
  split; [done|]. intros i Hi. apply lookup_lt_is_Some.
  by apply (proj1 (Forall_forall _ _) Hlt).
Qed.

Lemma concordance_is_Some (data : list string) (w : string) :
  is_Some (concordance data !! w)
  ↔ ∃ i sentence, data !! i = Some sentence ∧ occurs_in w sentence.
Proof.
  unfold concordance. rewrite foldl_add_sentence_is_Some, lookup_empty.
  split.
  - intros [[? [=]]|([i s] & He%elem_of_entries & Hocc)]. by exists i, s.
  - intros (i & s & Hs & Hocc). right. exists (i, s).
    by rewrite elem_of_entries.
Qed.

(** X3. Every key of the concordance is non-empty, is its own lower-case
    form and holds no delimiter character. *)
Theorem concordance_keys_normalised (data : list string) (w : string) :
  is_Some (concordance data !! w) →
  w ≠ "" ∧ toLowerCase w = w ∧ delimiter_free w = true.
Proof.
  intros (i & s & _ & Hw & t & Ht & <-)%concordance_is_Some.
  split_and!; [done|apply toLowerCase_idempotent|].
  rewrite delimiter_free_toLowerCase. by apply (split_delimiter_free s).
Qed.

(** ** The indexer: when an index is listed once only *)

(** While the words of the sentence at position [k] are added: the index
    arrays have no repetition, and a key that lists [k] already is the
    lower-case form of none of the words still to come. *)
Lemma foldl_add_word_NoDup k tokens (map : gmap string (list nat)) :
  NoDup (toLowerCase <$> tokens) →
  (∀ w l, map !! w = Some l →
          NoDup l ∧ (k ∈ l → ∀ t, t ∈ tokens → toLowerCase t ≠ w)) →
  ∀ w l, foldl (add_word k) map tokens !! w = Some l → NoDup l.
Proof.
  revert map. induction tokens as [|t tokens IH]; intros map Hnd Hmap; simpl.
  - intros w l Hl. by apply (Hmap w l).
  - rewrite fmap_cons in Hnd. apply NoDup_cons in Hnd as [Hfresh Hnd].
    apply IH; [done|]. intros w l. unfold add_word.
    assert (∀ t', t' ∈ tokens → toLowerCase t' ≠ toLowerCase t) as Hrest.
    { intros t' Ht' Heq. apply Hfresh. rewrite <- Heq.
      by apply list_elem_of_fmap_2. }
    case_decide as Hne.
    + destruct (map !! toLowerCase t) as [indexes|] eqn:Hk;
        (destruct (decide (toLowerCase t = w)) as [<-|Hw];
         [rewrite lookup_insert_eq | rewrite lookup_insert_ne by done]).
      * intros [= <-]. destruct (Hmap _ _ Hk) as [Hnd' Hk']. split; [|done].
        apply NoDup_app. split_and!; [done| |apply NoDup_singleton].
        intros j Hj ->%list_elem_of_singleton.
        apply (Hk' Hj t); [by left|done].
      * intros Hl. destruct (Hmap _ _ Hl) as [Hnd' Hk']. split; [done|].
        intros Hin t' Ht'. apply Hk'; [done|by right].
      * intros [= <-]. split; [apply NoDup_singleton|done].
      * intros Hl. destruct (Hmap _ _ Hl) as [Hnd' Hk']. split; [done|].
        intros Hin t' Ht'. apply Hk'; [done|by right].
    + intros Hl. destruct (Hmap _ _ Hl) as [Hnd' Hk']. split; [done|].
      intros Hin t' Ht'. apply Hk'; [done|by right].
Qed.

Lemma case_distinct_NoDup (sentence : string) :
  case_distinct sentence →
  NoDup (toLowerCase <$> Set_spread (split sentence)).
Proof.
  intros Hd. apply NoDup_fmap_2_strong; [|apply Set_spread_NoDup].
  intros t1 t2 Ht1 Ht2 Heq.
  apply (proj1 (Set_spread_elem _ _)) in Ht1.
  apply (proj1 (Set_spread_elem _ _)) in Ht2. by apply Hd.
Qed.

Lemma concordance_NoDup (data : list string) :
  (∀ sentence, sentence ∈ data → case_distinct sentence) →
  ∀ w l, concordance data !! w = Some l → NoDup l.
Proof.
  induction data as [|s data IH] using rev_ind; intros Hd w l.
  - unfold concordance. simpl. by rewrite lookup_empty.
  - rewrite concordance_snoc. unfold add_sentence. simpl.
    apply foldl_add_word_NoDup.
    + apply case_distinct_NoDup, Hd, elem_of_app. right.
      by apply list_elem_of_singleton.
    + intros w' l' Hl'. split.
      * apply (IH (λ s' Hs', Hd s' (proj2 (elem_of_app _ _ _) (or_introl Hs')))
                 w' l' Hl').
      * intros Hin. destruct (concordance_ascending data w' l' Hl') as [_ Hlt].
        apply (proj1 (Forall_forall _ _) Hlt) in Hin. lia.
Qed.

Lemma StronglySorted_le_NoDup_lt (l : list nat) :
  StronglySorted le l → NoDup l → StronglySorted lt l.
Proof.
  induction 1 as [|x l Hs IH Hall]; intros Hnd; [constructor|].
  apply NoDup_cons in Hnd as [Hx Hnd]. constructor; [by apply IH|].
  apply Forall_forall. intros y Hy.
  pose proof (proj1 (Forall_forall _ _) Hall y Hy) as Hle.
  destruct (decide (x = y)) as [->|Hne]; [done|]. lia.
Qed.

(** X4. When no sentence has two different pieces with the same lower-case
    form, every index array is strictly ascending: each sentence is listed
    at most once per word. *)
Theorem concordance_strictly_ascending (data : list string) w indexes :
  (∀ sentence, sentence ∈ data → case_distinct sentence) →
  concordance data !! w = Some indexes →
  StronglySorted lt indexes.
Proof.
  intros Hd Hw. apply StronglySorted_le_NoDup_lt.
  - by destruct (concordance_ascending data w indexes Hw).
  - by apply (concordance_NoDup data Hd w).
Qed.

Lemma add_sentence_only_delimiters (map : gmap string (list nat)) k sentence :
  only_delimiters sentence = true → add_sentence map (k, sentence) = map.
Proof.
  intros Hs. unfold add_sentence. simpl.
  assert (∀ t, t ∈ Set_spread (split sentence) → t = "") as Hempty.
  { intros t Ht. apply (proj1 (Set_spread_elem _ _)) in Ht.
    by apply (split_only_delimiters sentence). }
  induction (Set_spread (split sentence)) as [|t tokens IH]; simpl; [done|].
  rewrite (Hempty t) by by left. unfold add_word at 2. simpl.
  apply IH. intros t' Ht'. apply Hempty. by right.
Qed.

(** X5. A sentence that is empty or made of delimiters only adds nothing to
    the concordance. *)
Theorem concordance_blank_sentence (data : list string) (sentence : string) :
  only_delimiters sentence = true →
  concordance (data ++ [sentence]) = concordance data.
Proof.
  intros Hs. rewrite concordance_snoc.
  by apply add_sentence_only_delimiters.
Qed.


(** ** The query engine: what the result holds *)

Lemma collect_elem data indexes (result : list (option string)) x :
  x ∈ collect data result indexes
  ↔ x ∈ result ∨ ∃ i, i ∈ indexes ∧ x = data !! i.
Proof.
  revert result. induction indexes as [|j indexes IH]; intros result; simpl.
  - split; [by left|]. intros [?|(i & Hi%elem_of_nil & _)]; done.
  - rewrite IH. unfold includes. case_bool_decide as Hin.
    + split.
      * intros [?|(i & Hi & ->)]; [by left|]. right. exists i.
        split; [by right|done].
      * intros [?|(i & [->|Hi]%elem_of_cons & ->)]; eauto.
    + rewrite elem_of_app, list_elem_of_singleton. split.
      * intros [[?| ->]|(i & Hi & ->)]; [by left|..].
        -- right. exists j. split; [by left|done].
        -- right. exists i. split; [by right|done].
      * intros [?|(i & [->|Hi]%elem_of_cons & ->)]; eauto.
Qed.

Lemma collect_NoDup data indexes (result : list (option string)) :
  NoDup result → NoDup (collect data result indexes).
Proof.
  revert result. induction indexes as [|j indexes IH]; intros result Hnd;
    simpl; [done|].
  apply IH. unfold includes. case_bool_decide as Hin; [done|].
  apply NoDup_app. split_and!; [done| |apply NoDup_singleton].
  intros x Hx ->%list_elem_of_singleton. done.
Qed.

(** The inner loop over ascending indexes keeps the result in the order of
    [data]: [result] is drawn from the first [k] sentences, and an index
    below [k] still to come names a sentence already present. *)
Lemma collect_sublist data indexes (result : list (option string)) (k : nat) :
  result `sublist_of` take k (Some <$> data) →
  StronglySorted le indexes →
  (∀ j, j ∈ indexes →
        (j < List.length data)%nat ∧ ((k ≤ j)%nat ∨ data !! j ∈ result)) →
  collect data result indexes `sublist_of` (Some <$> data).
Proof.
  revert result k.
  induction indexes as [|j indexes IH]; intros result k Hsub Hsorted Hidx;
    simpl.
  - etrans; [done|]. apply sublist_take.
  - apply StronglySorted_inv in Hsorted as [Hsorted Hle].
    unfold includes. case_bool_decide as Hin.
    + apply (IH result k); [done..|]. intros j' Hj'. apply Hidx. by right.
    + destruct (Hidx j) as [Hlt [Hkj|?]]; [by left| |done].
      destruct (lookup_lt_is_Some_2 data j Hlt) as [s Hs].
      apply (IH _ (S j)); [|done|].
      * rewrite (take_S_r _ _ (Some s))
          by (by rewrite list_lookup_fmap, Hs).
        rewrite Hs. apply sublist_app; [|done].
        etrans; [done|].
        replace k with (k `min` j)%nat by lia.
        rewrite <- take_take. apply sublist_take.
      * intros j' Hj'. destruct (Hidx j') as [Hlt' _]; [by right|].
        split; [done|].
        pose proof (proj1 (Forall_forall _ _) Hle j' Hj') as Hjj'.
        destruct (decide (j' = j)) as [->|Hne]; [|left; lia].
        right. apply elem_of_app. right. by apply list_elem_of_singleton.
Qed.

(** X7. The result of [searchLines] never holds a sentence twice. *)
Theorem searchLines_NoDup words (c : gmap string (list nat)) data :
  NoDup (searchLines words c data).
Proof.
  destruct (head words) as [h|] eqn:Hh.
  - destruct (searchLines_first_word words c data h Hh) as [-> _].
    destruct (c !! toLowerCase (value h)); [|apply NoDup_nil_2].
    apply collect_NoDup, NoDup_nil_2.
  - unfold searchLines, searchLines_run. rewrite Hh. apply NoDup_nil_2.
Qed.

(** X8. When the first word, lower-cased, is no key of the concordance, the
    result is empty after a single lookup, however many words follow. *)
Theorem searchLines_first_word_absent words (c : gmap string (list nat))
    data h :
  head words = Some h →
  c !! toLowerCase (value h) = None →
  searchLines words c data = []
  ∧ lookups words c data = [toLowerCase (value h)].
Proof.
  intros Hh Hc. unfold searchLines, lookups, searchLines_run.
  by rewrite Hh, searchLines_loop_spec, Hc.
Qed.

(** X9. Two queries whose first words agree up to case give the same
    result, whatever their other words are. *)
Theorem searchLines_same_first_word words1 words2
    (c : gmap string (list nat)) data h1 h2 :
  head words1 = Some h1 → head words2 = Some h2 →
  toLowerCase (value h1) = toLowerCase (value h2) →
  searchLines words1 c data = searchLines words2 c data.
Proof.
  intros H1 H2 Heq.
  destruct (searchLines_first_word words1 c data h1 H1) as [-> _].
  destruct (searchLines_first_word words2 c data h2 H2) as [-> _].
  by rewrite Heq.
Qed.

(** X10. Against the concordance of [data], the result holds exactly the
    sentences of [data] in which the first word of the query occurs, and
    never [undefined]. *)
Theorem searchLines_finds_first_word words data h x :
  head words = Some h →
  x ∈ searchLines words (concordance data) data
  ↔ ∃ sentence, x = Some sentence ∧ sentence ∈ data
                ∧ occurs_in (toLowerCase (value h)) sentence.
Proof.
  intros Hh.
  destruct (searchLines_first_word words (concordance data) data h Hh)
    as [-> _].
  destruct (concordance data !! toLowerCase (value h)) as [indexes|] eqn:Hc.
  - rewrite collect_elem, elem_of_nil. split.
    + intros [[]|(i & Hi & ->)].
      assert (listed (concordance data) (toLowerCase (value h)) i) as Hl
        by (by exists indexes).
      apply concordance_listed in Hl as (s & Hs & Hocc).
      exists s. split_and!; [done| |done]. by apply list_elem_of_lookup_2 in Hs.
    + intros (s & -> & [i Hi]%list_elem_of_lookup_1 & Hocc). right.
      assert (listed (concordance data) (toLowerCase (value h)) i)
        as (l & Hl & Hil) by (apply concordance_listed; eauto).
      exists i. split; [congruence|done].
  - rewrite elem_of_nil. split; [done|].
    intros (s & _ & [i Hi]%list_elem_of_lookup_1 & Hocc).
    assert (is_Some (concordance data !! toLowerCase (value h))) as [? ?]
      by (apply concordance_is_Some; eauto).
    congruence.
Qed.

(** X11. Against the concordance of [data], the sentences of the result
    come in the order they have in [data]. *)
Theorem searchLines_in_data_order words data :
  searchLines words (concordance data) data `sublist_of` (Some <$> data).
Proof.
  destruct (head words) as [h|] eqn:Hh.
  - destruct (searchLines_first_word words (concordance data) data h Hh)
      as [-> _].
    destruct (concordance data !! toLowerCase (value h)) as [indexes|] eqn:Hc;
      [|apply sublist_nil_l].
    destruct (concordance_ascending data _ _ Hc) as [Hsorted Hlt].
    apply (collect_sublist data indexes [] 0); [apply sublist_nil_l|done|].
    intros j Hj. split; [|left; lia].
    by apply (proj1 (Forall_forall _ _) Hlt).
  - unfold searchLines, searchLines_run. rewrite Hh. apply sublist_nil_l.
Qed.

(** ** The linked list: the other methods *)

Section LinkedListMore.
Context {A : Type} `{EqDecision A}.
Implicit Types (node n m p : Node A) (this : LinkedList A).
Implicit Types (isMatch : Node A → nat → LinkedList A → bool).

(** Consecutive nodes of a chain are linked by [next]. *)
Lemma nodes_from_consecutive h i p n :
  nodes_from h !! i = Some p → nodes_from h !! S i = Some n →
  next p = Some n.
Proof.
  intros Hp Hn. apply nodes_from_lookup in Hp.
  assert (nodes_from p !! 1 = Some n) as H1.
  { rewrite Hp, lookup_drop. by rewrite Nat.add_1_r. }
  destruct p as [v [m|]]; simpl in *; [|done].
  destruct m as [w nx]. simpl in H1. by injection H1 as <-.
Qed.

(** X12. The [length] getter counts the values that [asArray] returns. *)
Theorem length_asArray this : length this = List.length (asArray this).
Proof. by rewrite length_nodes, asArray_nodes, length_fmap. Qed.

(** X13. [insertAtHead] puts the value in front of the others and makes the
    list one longer; removing the node at position 0 afterwards gives back
    the list as it was. *)
Theorem insertAtHead_remove (v : A) this :
  asArray (insertAtHead v this) = v :: asArray this
  ∧ length (insertAtHead v this) = S (length this)
  ∧ remove (indexIs 0) (insertAtHead v this) = (this, None).
Proof.
  split_and!.
  - apply asArray_insertAtHead.
  - by rewrite !length_nodes, <- !(length_fmap value), <- !asArray_nodes,
      asArray_insertAtHead.
  - unfold remove, findWithPrevious, insertAtHead. simpl.
    rewrite bool_decide_eq_true_2 by done.
    destruct this as [[h|]]; simpl; [|done].
    by rewrite Node_eqb_refl.
Qed.

(** X14. [find] returns [null] exactly when no node satisfies the
    predicate, and otherwise the first node that satisfies it. *)
Theorem find_first isMatch this :
  (find isMatch this = None ↔ no_match isMatch this)
  ∧ ∀ n, find isMatch this = Some n ↔ ∃ i, first_match isMatch this i n.
Proof.
  unfold find. split.
  - split.
    + intros Hnone.
      destruct (match_cases isMatch this) as [?|(i & n & Hf)]; [done|].
      by rewrite (findWithPrevious_first_match _ _ _ _ Hf) in Hnone.
    + intros Hno. by rewrite (findWithPrevious_no_match _ _ Hno).
  - intros n. split.
    + intros Hsome.
      destruct (match_cases isMatch this) as [Hno|(i & n' & Hf)].
      * by rewrite (findWithPrevious_no_match _ _ Hno) in Hsome.
      * rewrite (findWithPrevious_first_match _ _ _ _ Hf) in Hsome.
        injection Hsome as <-. by exists i.
    + intros [i Hf]. by rewrite (findWithPrevious_first_match _ _ _ _ Hf).
Qed.

(** X15. When a node matches, [findWithPrevious] returns the first such
    node with the node just before it, whose [next] is the node found; the
    second component is [null] exactly when the node found is the head. *)
Theorem findWithPrevious_link isMatch this i n :
  first_match isMatch this i n →
  ∃ previous,
    findWithPrevious isMatch this = (Some n, previous)
    ∧ match previous with
      | None => i = 0 ∧ head this = Some n
      | Some p => ∃ i', i = S i' ∧ nodes this !! i' = Some p ∧ next p = Some n
      end.
Proof.
  intros Hf. pose proof Hf as (Hn & _).
  rewrite (findWithPrevious_first_match _ _ _ _ Hf).
  eexists. split; [done|]. destruct i as [|i'].
  - split; [done|]. unfold nodes in Hn.
    destruct (head this) as [[v nx]|]; simpl in Hn; [|done]. congruence.
  - destruct (nodes this !! i') as [p|] eqn:Hp.
    + exists i'. split_and!; [done..|]. unfold nodes in *.
      destruct (head this) as [h|]; [|done].
      by apply (nodes_from_consecutive h i').
    + apply lookup_lt_Some in Hn. apply lookup_ge_None in Hp. lia.
Qed.

(** X16. When a node matches, [remove] raises nothing, unlinks the first
    matching node and leaves the other values in their order; the list is
    one shorter. *)
Theorem remove_unlinks_first_match isMatch this i n :
  first_match isMatch this i n →
  (remove isMatch this).2 = None
  ∧ asArray (remove isMatch this).1 = delete i (asArray this)
  ∧ S (length (remove isMatch this).1) = length this.
Proof.
  intros Hf. destruct (remove_first_match _ _ _ _ Hf) as [Hok Harr].
  split_and!; [done..|].
  rewrite !length_nodes, <- !(length_fmap value), <- !asArray_nodes, Harr.
  destruct Hf as (Hn & _). apply lookup_lt_Some in Hn.
  rewrite length_delete.
  - rewrite asArray_nodes, length_fmap. lia.
  - rewrite asArray_nodes, list_lookup_fmap.
    apply lookup_lt_is_Some_2 in Hn as [x ->]. by eexists.
Qed.

(** X17. With its default predicate, [insert] raises nothing and appends
    the value at the end, on an empty list as on any other. *)
Theorem insert_appends (v : A) this :
  (insert v (isLast this) this).2 = None
  ∧ asArray (insert v (isLast this) this).1 = asArray this ++ [v].
Proof. apply insert_default. Qed.

Lemma insert_all_spec (values : list A) this :
  (insert_all values this).2 = None
  ∧ asArray (insert_all values this).1 = asArray this ++ values.
Proof.
  revert this. induction values as [|v values IH]; intros this.
  - unfold insert_all. simpl. by rewrite app_nil_r.
  - unfold insert_all. simpl.
    destruct (insert_default v this) as [Hok Harr].
    destruct (insert v (isLast this) this) as [this' e]. simpl in *.
    subst e. destruct (IH this') as [Hok' Harr']. unfold insert_all in *.
    split; [done|]. rewrite Harr', Harr, <- app_assoc. done.
Qed.

(** X18. Inserts chained on an empty list, each with the default
    predicate, never raise and build the list of the values in the order
    of the calls: the same sequence as the constructor gives. *)
Theorem insert_all_builds (values : list A) :
  (insert_all values (mkList None)).2 = None
  ∧ asArray (insert_all values (mkList None)).1 = values
  ∧ asArray (insert_all values (mkList None)).1
    = asArray (LinkedList_of values).
Proof.
  destruct (insert_all_spec values (mkList None)) as [Hok Harr].
  split_and!; [done|done|]. by rewrite asArray_LinkedList_of.
Qed.

(** X19. Constructing a second list from the same array gives the values
    in reverse order, because the first construction left the array
    reversed; the second one puts the array back as it was. *)
Theorem constructor_twice (arrays : gmap nat (list A)) r (array : list A) :
  arrays !! r = Some array →
  let first := constructor (ArrayRef r) arrays in
  let second := constructor (ArrayRef r) first.1 in
  asArray first.2 = array
  ∧ asArray second.2 = reverse array
  ∧ second.1 = arrays.
Proof.
  intros Hr first second.
  destruct (constructor_array arrays r array Hr) as [H1 Harr1].
  assert (first.1 !! r = Some (reverse array)) as Hr'
    by (subst first; rewrite H1; apply lookup_insert_eq).
  destruct (constructor_array first.1 r (reverse array) Hr') as [H2 Harr2].
  split_and!; [done..|]. subst second. rewrite H2.
  subst first. rewrite H1, insert_insert_eq, reverse_involutive.
  by apply insert_id.
Qed.
End LinkedListMore.

(** ** The rendering of a list of strings *)

Lemma append_bar_inj (s1 s2 : string) :
  String.append s1 "|" = String.append s2 "|" → s1 = s2.
Proof.
  revert s2. induction s1 as [|c s1 IH]; intros [|c' s2]; simpl; [done|..].
  - intros [= <- Hs]. by destruct s2.
  - intros [= -> Hs]. by destruct s1.
  - intros [= -> Hs]. f_equal. by apply IH.
Qed.

(** A value without hyphen-minus ends where the separator starts. *)
Lemma append_arrow_inj (x y rest1 rest2 : string) :
  dash_free x = true → dash_free y = true →
  String.append x (String.append "->" rest1)
  = String.append y (String.append "->" rest2) →
  x = y ∧ rest1 = rest2.
Proof.
  revert y. induction x as [|c x IH]; intros [|c' y]; simpl;
    intros Hx Hy Heq; cbv [String.append] in Heq; fold String.append in Heq.
  - by injection Heq as ->.
  - injection Heq as <- _. done.
  - injection Heq as -> _. done.
  - apply andb_true_iff in Hx as [Hc Hx]. apply andb_true_iff in Hy as [Hc' Hy].
    injection Heq as -> Heq.
    destruct (IH y Hx Hy Heq) as [-> ->]. done.
Qed.

Lemma dash_free_append_arrow (x rest : string) :
  dash_free (String.append x (String.append "->" rest)) = false.
Proof.
  induction x as [|c x IH]; [done|].
  change (negb (Ascii.eqb c "-")
          && dash_free (String.append x (String.append "->" rest)) = false).
  rewrite IH. apply andb_false_r.
Qed.

Lemma join_arrow_inj (l1 l2 : list string) :
  l1 ≠ [] → l2 ≠ [] →
  Forall (λ v, dash_free v = true) l1 → Forall (λ v, dash_free v = true) l2 →
  join "->" l1 = join "->" l2 → l1 = l2.
Proof.
  revert l2. induction l1 as [|x l1 IH]; intros [|y l2] Hne1 Hne2 H1 H2;
    try done.
  apply Forall_cons in H1 as [Hx H1]. apply Forall_cons in H2 as [Hy H2].
  destruct l1 as [|x' l1], l2 as [|y' l2]; cbn [join].
  - by intros ->.
  - intros ->. by rewrite dash_free_append_arrow in Hx.
  - intros <-. by rewrite dash_free_append_arrow in Hy.
  - intros [-> Hrest]%append_arrow_inj; [|done..].
    f_equal. by apply IH.
Qed.

(** X20. For lists whose values hold no hyphen-minus, the rendering
    determines the values, with one exception: the empty list and the list
    of one empty string are both rendered ["||"]. *)
Theorem toString_determines_values (a b : LinkedList string) :
  Forall (λ v, dash_free v = true) (asArray a) →
  Forall (λ v, dash_free v = true) (asArray b) →
  toString a = toString b →
  asArray a = asArray b
  ∨ (asArray a = [] ∧ asArray b = [""])
  ∨ (asArray a = [""] ∧ asArray b = []).
Proof.
  unfold toString. intros Ha Hb [= Heq%append_bar_inj].
  destruct (asArray a) as [|x l1] eqn:Hla, (asArray b) as [|y l2] eqn:Hlb.
  - by left.
  - right. left. split; [done|]. cbn [join] in Heq.
    destruct l2 as [|y' l2]; [by rewrite <- Heq|].
    by destruct y.
  - right. right. split; [|done]. cbn [join] in Heq.
    destruct l1 as [|x' l1]; [by rewrite Heq|].
    by destruct x.
  - left. by apply join_arrow_inj.
Qed.

(** ** Instances of the further properties *)

Lemma concordance_indexes_in_range_witness :
  StronglySorted le [0; 1]
  ∧ ∀ i, i ∈ [0; 1] → is_Some (["Free men"; "free"] !! i).
Proof.
  apply (concordance_indexes_in_range ["Free men"; "free"] "free" [0; 1]).
  vm_compute. reflexivity.
Defined.

Lemma concordance_keys_normalised_witness :
  "free" ≠ "" ∧ toLowerCase "free" = "free" ∧ delimiter_free "free" = true.
Proof.
  apply (concordance_keys_normalised ["Free men"] "free").
  exists [0]. vm_compute. reflexivity.
Defined.

Lemma concordance_strictly_ascending_witness : StronglySorted lt [0; 1].
Proof.
  apply (concordance_strictly_ascending ["the cat"; "the dog"] "the" [0; 1]).
  - intros sentence Hs t1 t2 H1 H2 Heq.
    apply list_elem_of_In in Hs. simpl in Hs.
    destruct Hs as [<-|[<-|[]]];
      apply list_elem_of_In in H1; apply list_elem_of_In in H2;
      simpl in H1, H2;
      destruct H1 as [<-|[<-|[]]]; destruct H2 as [<-|[<-|[]]];
      first [reflexivity | discriminate Heq].
  - vm_compute. reflexivity.
Defined.

Lemma concordance_blank_sentence_witness :
  concordance (["a b"] ++ [" ,; "]) = concordance ["a b"].
Proof. apply (concordance_blank_sentence ["a b"] " ,; "). reflexivity. Defined.

Lemma searchLines_first_word_absent_witness :
  let data := ["cat sat"; "dog ran"] in
  searchLines (LinkedList_of ["zzz"; "cat"]) (concordance data) data = []
  ∧ lookups (LinkedList_of ["zzz"; "cat"]) (concordance data) data = ["zzz"].
Proof.
  intros data.
  apply (searchLines_first_word_absent (LinkedList_of ["zzz"; "cat"])
           (concordance data) data (mkNode "zzz" (Some (mkNode "cat" None)))).
  - reflexivity.
  - vm_compute. reflexivity.
Defined.

Lemma searchLines_same_first_word_witness :
  let data := ["All human beings"; "free men"] in
  searchLines (LinkedList_of ["HUMAN"; "free"]) (concordance data) data
  = searchLines (LinkedList_of ["human"]) (concordance data) data.
Proof.
  intros data.
  apply (searchLines_same_first_word _ _ (concordance data) data
           (mkNode "HUMAN" (Some (mkNode "free" None)))
           (mkNode "human" None)); reflexivity.
Defined.

Lemma searchLines_finds_first_word_witness :
  let data := ["the cat sat"; "the dog ran"] in
  Some "the cat sat"
  ∈ searchLines (LinkedList_of ["Cat"; "dog"]) (concordance data) data.
Proof.
  intros data.
  apply (searchLines_finds_first_word (LinkedList_of ["Cat"; "dog"]) data
           (mkNode "Cat" (Some (mkNode "dog" None))) (Some "the cat sat"));
    [reflexivity|].
  exists "the cat sat". split_and!; [reflexivity|by left|].
  split; [discriminate|]. exists "cat". split; [|reflexivity].
  apply list_elem_of_In. simpl. tauto.
Defined.

Lemma findWithPrevious_link_witness :
  let abc := LinkedList_of ["a"; "b"; "c"] in
  let b := mkNode "b" (Some (mkNode "c" None)) in
  ∃ previous,
    findWithPrevious (valueIs "b") abc = (Some b, previous)
    ∧ match previous with
      | None => 1 = 0 ∧ head abc = Some b
      | Some p => ∃ i', 1 = S i' ∧ nodes abc !! i' = Some p ∧ next p = Some b
      end.
Proof.
  intros abc b. apply (findWithPrevious_link (valueIs "b") abc 1 b).
  split_and!; [reflexivity..|].
  intros [|j] m Hlt Hm; [|lia].
  vm_compute in Hm. injection Hm as <-. reflexivity.
Defined.

Lemma remove_unlinks_first_match_witness :
  let abc := LinkedList_of ["a"; "b"; "c"] in
  (remove (valueIs "b") abc).2 = None
  ∧ asArray (remove (valueIs "b") abc).1 = ["a"; "c"]
  ∧ S (length (remove (valueIs "b") abc).1) = 3.
Proof.
  intros abc.
  apply (remove_unlinks_first_match (valueIs "b") abc 1
           (mkNode "b" (Some (mkNode "c" None)))).
  split_and!; [reflexivity..|].
  intros [|j] m Hlt Hm; [|lia].
  vm_compute in Hm. injection Hm as <-. reflexivity.
Defined.

Lemma constructor_twice_witness :
  let arrays : gmap nat (list string) := {[7 := ["a"; "b"; "c"]]} in
  let first := constructor (ArrayRef 7) arrays in
  let second := constructor (ArrayRef 7) first.1 in
  asArray first.2 = ["a"; "b"; "c"]
  ∧ asArray second.2 = ["c"; "b"; "a"]
  ∧ second.1 = arrays.
Proof.
  intros arrays.
  apply (constructor_twice arrays 7 ["a"; "b"; "c"]). reflexivity.
Defined.

Lemma toString_determines_values_witness :
  let empty : LinkedList string := mkList None in
  asArray empty = asArray (LinkedList_of [""])
  ∨ (asArray empty = [] ∧ asArray (LinkedList_of [""]) = [""])
  ∨ (asArray empty = [""] ∧ asArray (LinkedList_of [""]) = []).
Proof.
  intros empty.
  apply (toString_determines_values empty (LinkedList_of [""])).
  - apply Forall_nil_2.
  - apply Forall_cons. split; [reflexivity|apply Forall_nil_2].
  - reflexivity.
Defined.
